(** * Metric keys of the tracing layer (src/tracing/metric_keys.h)

    The header declares the type [MetricKey] and ten string constants of
    that type.  Part one embeds the header, line by line, and states what
    it contains.  Part two models the emission core that the specification
    builds around these keys (sinks, a bounded sink table, [Emit]). *)

From stdpp Require Import base option list strings gmap.

Set Warnings "-register-all".

(** ** Part one: the header *)

Module MetricKeys.

Local Open Scope string_scope.
Local Open Scope list_scope.

(** C++ types, as far as the header needs them. [const char *] is a pointer
    to constant characters: [TPtr (TConst TChar)]. *)
Inductive ctype : Type :=
| TChar
| TConst (t : ctype)
| TPtr (t : ctype)
| TName (n : string).

(** Initialisers and statements. The header uses string literals only; the
    other forms are what a header may hold besides. *)
Inductive expr : Type :=
| EStr (s : string)
| EInt (z : Z)
| EVar (x : string)
| ECall (f : string) (args : list expr).

Inductive stmt : Type :=
| SExpr (e : expr)
| SReturn (e : expr)
| SIf (c : expr) (th el : list stmt)
| SWhile (c : expr) (body : list stmt).

(** A namespace-level declaration. [DVar cx t x init] is a variable [x] of
    declared type [t]; [cx] tells whether it carries [constexpr]. *)
Inductive decl : Type :=
| DTypedef (t : ctype) (name : string)
| DVar (cx : bool) (t : ctype) (name : string) (init : option expr)
| DFunction (ret : ctype) (name : string) (body : list stmt).

(** One line of the header. Comment text is not kept. *)
Inductive line : Type :=
| LComment
| LBlank
| LPragma (what : string)
| LInclude (path : string)
| LNamespaceOpen (name : string)
| LNamespaceClose (name : string)
| LDecl (d : decl).

#[global] Instance ctype_eq_dec : EqDecision ctype.
Proof. solve_decision. Defined.

(** [constexpr MetricKey name = "value";] *)
Definition constexpr_key (name value : string) : line :=
  LDecl (DVar true (TName "MetricKey") name (Some (EStr value))).

(** The header, lines 1 to 44. *)
Definition metric_keys_h : list line :=
  replicate 16 LComment ++
  [ LPragma "once";
    LBlank;
    LInclude "matter/tracing/build_config.h";
    LBlank;
    LNamespaceOpen "chip";
    LNamespaceOpen "Tracing";
    LBlank;
    LComment; LComment; LComment;
    LDecl (DTypedef (TPtr (TConst TChar)) "MetricKey");
    LBlank;
    LComment; LComment; LComment;
    constexpr_key "kMetricDiscoveryOverBLE" "disc-over-ble";
    constexpr_key "kMetricDiscoveryOnNetwork" "disc-on-nw";
    constexpr_key "kMetricPASESession" "pase-session";
    constexpr_key "kMetricPASESessionPair" "pase-session-pair";
    constexpr_key "kMetricPASESessionBLE" "pase-session-ble";
    constexpr_key "kMetricAttestationResult" "attestation-result";
    constexpr_key "kMetricAttestationOverridden" "attestation-overridden";
    constexpr_key "kMetricCASESession" "case-session";
    constexpr_key "kMetricCASESessionEstState" "case-conn-est";
    constexpr_key "kMetricWiFiRSSI" "wifi_rssi";
    LBlank;
    LNamespaceClose "Tracing";
    LNamespaceClose "chip" ].

(** [typedef const char * MetricKey;] *)
Definition MetricKey : Type := string.

Definition kMetricDiscoveryOverBLE : MetricKey := "disc-over-ble".
Definition kMetricDiscoveryOnNetwork : MetricKey := "disc-on-nw".
Definition kMetricPASESession : MetricKey := "pase-session".
Definition kMetricPASESessionPair : MetricKey := "pase-session-pair".
Definition kMetricPASESessionBLE : MetricKey := "pase-session-ble".
Definition kMetricAttestationResult : MetricKey := "attestation-result".
Definition kMetricAttestationOverridden : MetricKey := "attestation-overridden".
Definition kMetricCASESession : MetricKey := "case-session".
Definition kMetricCASESessionEstState : MetricKey := "case-conn-est".
Definition kMetricWiFiRSSI : MetricKey := "wifi_rssi".

(** The ten constants in the order of the header. *)
Definition supported_keys : list MetricKey :=
  [ kMetricDiscoveryOverBLE; kMetricDiscoveryOnNetwork; kMetricPASESession;
    kMetricPASESessionPair; kMetricPASESessionBLE; kMetricAttestationResult;
    kMetricAttestationOverridden; kMetricCASESession;
    kMetricCASESessionEstState; kMetricWiFiRSSI ].

(** *** Reading the header *)

Definition line_decl (l : line) : option decl :=
  match l with LDecl d => Some d | _ => None end.

Definition declarations : list decl := omap line_decl metric_keys_h.

(** Lines that are neither comment nor blank. *)
Definition is_code (l : line) : bool :=
  match l with LComment | LBlank => false | _ => true end.

Definition code_lines : list line := List.filter is_code metric_keys_h.

(** The typedefs in scope, and a declared type with its typedef names
    replaced by what they stand for. *)
Definition typedef_of (d : decl) : option (string * ctype) :=
  match d with DTypedef t n => Some (n, t) | _ => None end.

Definition typedefs : list (string * ctype) := omap typedef_of declarations.

Fixpoint lookup_typedef (env : list (string * ctype)) (n : string) : option ctype :=
  match env with
  | [] => None
  | (m, t) :: rest => if String.eqb m n then Some t else lookup_typedef rest n
  end.

Fixpoint resolve (env : list (string * ctype)) (t : ctype) : ctype :=
  match t with
  | TChar => TChar
  | TConst u => TConst (resolve env u)
  | TPtr u => TPtr (resolve env u)
  | TName n => default (TName n) (lookup_typedef env n)
  end.

(** The type of the declared object: [constexpr] makes the object itself
    [const]. *)
Definition object_type (cx : bool) (t : ctype) : ctype :=
  let u := resolve typedefs t in
  if cx then TConst u else u.

(** A constant pointer to constant characters: neither the pointer nor
    the characters it points to can be written through it. *)
Definition immutable_string_type (t : ctype) : bool :=
  bool_decide (t = TConst (TPtr (TConst TChar))).

Definition is_string_literal (e : option expr) : bool :=
  match e with Some (EStr _) => true | _ => false end.

(** A compile-time string constant of type [MetricKey]. *)
Definition is_key_constant (d : decl) : bool :=
  match d with
  | DVar cx t _ init =>
      cx && bool_decide (t = TName "MetricKey")
         && immutable_string_type (object_type cx t)
         && is_string_literal init
  | _ => false
  end.

Definition is_MetricKey_typedef (d : decl) : bool :=
  match d with
  | DTypedef t n => String.eqb n "MetricKey" && bool_decide (t = TPtr (TConst TChar))
  | _ => false
  end.

Definition is_function (d : decl) : bool :=
  match d with DFunction _ _ _ => true | _ => false end.

(** A variable that can be assigned after its initialisation. *)
Definition is_mutable_variable (d : decl) : bool :=
  match d with
  | DVar cx t _ _ =>
      match object_type cx t with TConst _ => false | _ => true end
  | _ => false
  end.

(** Statements occur in function bodies only. *)
Definition statements (d : decl) : list stmt :=
  match d with DFunction _ _ body => body | _ => [] end.

(** Name and value of each constant the header defines. *)
Definition key_constant (d : decl) : option (string * MetricKey) :=
  match d with
  | DVar true (TName "MetricKey") name (Some (EStr v)) => Some (name, v)
  | _ => None
  end.

Definition key_constants : list (string * MetricKey) := omap key_constant declarations.

End MetricKeys.

(** *** Scopes, names and values of the header *)

Module KeyTable.
Import MetricKeys.

Local Open Scope string_scope.
Local Open Scope list_scope.

(** The lines of code with the namespaces open around each, outermost
    first. [namespace N {] opens [N]; a closing brace closes the innermost
    open namespace, whatever the comment behind it says. [None] if a brace
    closes nothing or a namespace stays open at the end of the file.
    [stack] holds the open namespaces, innermost first. *)
Fixpoint place (stack : list string) (ls : list line) : option (list (list string * line)) :=
  match ls with
  | [] => match stack with [] => Some [] | _ :: _ => None end
  | l :: rest =>
      match l with
      | LComment | LBlank => place stack rest
      | LNamespaceOpen n => place (n :: stack) rest
      | LNamespaceClose _ =>
          match stack with
          | [] => None
          | _ :: outer => place outer rest
          end
      | LPragma _ | LInclude _ | LDecl _ =>
          (λ ps, (reverse stack, l) :: ps) <$> place stack rest
      end
  end.

(** For each closing brace: the namespace it closes, and the name in the
    comment behind it. *)
Fixpoint closings (stack : list string) (ls : list line) : list (string * string) :=
  match ls with
  | [] => []
  | LNamespaceOpen n :: rest => closings (n :: stack) rest
  | LNamespaceClose c :: rest =>
      match stack with
      | [] => []
      | n :: outer => (n, c) :: closings outer rest
      end
  | _ :: rest => closings stack rest
  end.

(** The name a declaration introduces. *)
Definition decl_name (d : decl) : string :=
  match d with
  | DTypedef _ n => n
  | DVar _ _ n _ => n
  | DFunction _ n _ => n
  end.

(** The typedefs declared on the lines before line [k] (counted from 0). *)
Definition typedefs_before (k : nat) : list (string * ctype) :=
  omap typedef_of (omap line_decl (take k metric_keys_h)).

(** The characters of the key values, by character code: 97 to 122 are
    the letters a to z, 45 is the hyphen and 95 the underscore. *)
Definition is_lower (a : Ascii.ascii) : bool :=
  (97 <=? Ascii.nat_of_ascii a)%nat && (Ascii.nat_of_ascii a <=? 122)%nat.

Definition is_separator (a : Ascii.ascii) : bool :=
  (Ascii.nat_of_ascii a =? 45)%nat || (Ascii.nat_of_ascii a =? 95)%nat.

Definition key_char (a : Ascii.ascii) : bool := is_lower a || is_separator a.

(** Lowercase letters, hyphens and underscores only, with a letter at
    either end. The empty string has no first character and fails. *)
Definition is_plain_token (v : string) : bool :=
  let cs := String.list_ascii_of_string v in
  forallb key_char cs
  && from_option is_lower false (head cs)
  && from_option is_lower false (last cs).

End KeyTable.

(** ** Part two: the emission core

    The header holds the keys only; the registry that the specification
    describes around them (section 4.1: [RegisterSink], [UnregisterSink],
    [Emit]) is not part of the given source. It is modelled here from the
    specification's text. *)

Module Registry.
Import MetricKeys.

(** Modelled from the spec: the payload of a MetricEvent, "an optional
    numeric or string payload" (section 3); the event type is missing from
    the source. *)
Inductive Payload : Type :=
| PNum (z : Z)
| PStr (s : string).

Definition Timestamp : Type := nat.

(** Modelled from the spec: MetricEvent, "a MetricKey, an optional numeric
    or string payload, and an implicit capture timestamp" (section 3). *)
Record MetricEvent : Type := mkEvent {
  ev_key : MetricKey;
  ev_value : option Payload;
  ev_time : Timestamp
}.

(** Modelled from the spec: the registry "holds non-owning references" to
    sinks (section 3); a reference is the address of the sink object. *)
Definition SinkRef : Type := nat.

(** Modelled from the spec: SinkHandle, what [RegisterSink] returns and
    [UnregisterSink] takes (section 4.1). Handles are drawn from a counter,
    so that a removed handle stays invalid. *)
Definition SinkHandle : Type := nat.

(** Modelled from the spec: the failures of section 7. A sink may fail
    while it accepts an event ("e.g., buffer full"); registration fails
    when the sink table is full. *)
Inductive SinkError : Type :=
| BufferFull
| NoSuchSink.

Inductive RegistryError : Type :=
| SinkTableFull.

(** Modelled from the spec: what an operation hands back to its caller.
    [RegisterSink] answers with a handle or with a failure; the other two
    operations return nothing. *)
Inductive Response : Type :=
| Handle (h : SinkHandle)
| Failure (e : RegistryError)
| Done.

(** Modelled from the spec: one forwarding of an event to a sink (section
    4.1), as an observer of the sink would note it: under which handle, to
    which sink, with which event, and how the sink answered. *)
Record Delivery : Type := mkDelivery {
  to_handle : SinkHandle;
  to_sink : SinkRef;
  event : MetricEvent;
  status : option SinkError
}.

(** Modelled from the spec: the sink table, "the only shared mutable
    state" (section 5), in registration order, with the handle counter. *)
Record Registry : Type := mkRegistry {
  table : list (SinkHandle * SinkRef);
  next_handle : SinkHandle
}.

#[global] Instance Payload_eq_dec : EqDecision Payload.
Proof. solve_decision. Defined.
#[global] Instance MetricEvent_eq_dec : EqDecision MetricEvent.
Proof. unfold MetricKey, Timestamp. solve_decision. Defined.
#[global] Instance SinkError_eq_dec : EqDecision SinkError.
Proof. solve_decision. Defined.
#[global] Instance RegistryError_eq_dec : EqDecision RegistryError.
Proof. solve_decision. Defined.
#[global] Instance Response_eq_dec : EqDecision Response.
Proof. unfold SinkHandle. solve_decision. Defined.
#[global] Instance Delivery_eq_dec : EqDecision Delivery.
Proof. unfold SinkHandle, SinkRef. solve_decision. Defined.

Section Core.

(** Modelled from the spec: a Sink is "a polymorphic capability -- can
    accept a MetricEvent" (section 3). [World] is whatever the sinks live
    in; [accept s ev w] lets the sink behind [s] take [ev] and gives the
    world afterwards, with the sink's own verdict. [clock] reads the
    capture time, [max_sinks] is the "implementation-chosen small upper
    bound" of section 4.1. *)
Context {World : Type}.
Variable accept : SinkRef -> MetricEvent -> World -> World * option SinkError.
Variable clock : World -> Timestamp.
Variable max_sinks : nat.

(** Modelled from the spec: an instance of the registry (section 9, "an
    explicitly constructed singleton instance") with the world its sinks
    live in, and the deliveries made so far. *)
Record State : Type := mkState {
  registry : Registry;
  world : World;
  deliveries : list Delivery
}.

(** Modelled from the spec: a freshly constructed instance (section 9:
    "tests can construct independent instances"). *)
Definition init (w : World) : State :=
  mkState (mkRegistry [] 0) w [].

(** Modelled from the spec: "RegisterSink(sink) -> SinkHandle: adds a sink
    to the active set", and on a full table "signals this back to its
    caller (result/boolean)" (sections 4.1 and 7). *)
Definition RegisterSink (s : SinkRef) (st : State) : State * Response :=
  let r := registry st in
  if decide (length (table r) < max_sinks) then
    (mkState (mkRegistry (table r ++ [(next_handle r, s)]) (S (next_handle r)))
             (world st) (deliveries st),
     Handle (next_handle r))
  else (st, Failure SinkTableFull).

(** Modelled from the spec: "UnregisterSink(handle): removes a previously
    registered sink. No-op (not an error) if the handle is already
    invalid/removed" (section 4.1). *)
Definition UnregisterSink (h : SinkHandle) (st : State) : State :=
  let r := registry st in
  mkState (mkRegistry (filter (λ e, e.1 ≠ h) (table r)) (next_handle r))
          (world st) (deliveries st).

(** Modelled from the spec: the fan-out of [Emit] (section 4.1), every
    entry of the table in turn. The sink's verdict is noted and otherwise
    ignored: the next sink is called whatever the previous one answered
    ("not by aborting emission to other sinks"). *)
Fixpoint forward (ev : MetricEvent) (entries : list (SinkHandle * SinkRef))
    (w : World) : World * list Delivery :=
  match entries with
  | [] => (w, [])
  | (h, s) :: rest =>
      let '(w1, verdict) := accept s ev w in
      let '(w2, ds) := forward ev rest w1 in
      (w2, mkDelivery h s ev verdict :: ds)
  end.

(** Modelled from the spec: the event that [Emit key value] creates in
    state [st], with the "implicit capture timestamp" of section 3. *)
Definition capture (key : MetricKey) (value : option Payload) (st : State) : MetricEvent :=
  mkEvent key value (clock (world st)).

(** The deliveries that [Emit key value] makes in state [st]. *)
Definition emitted (key : MetricKey) (value : option Payload) (st : State) : list Delivery :=
  (forward (capture key value st) (table (registry st)) (world st)).2.

(** Modelled from the spec: "Emit(key, value): records the event and
    synchronously forwards it, in registration order, to each active
    sink"; "never throws/propagates a failure to the caller" (section
    4.1). *)
Definition Emit (key : MetricKey) (value : option Payload) (st : State) : State :=
  let '(w, ds) := forward (capture key value st) (table (registry st)) (world st) in
  mkState (registry st) w (deliveries st ++ ds).

(** The three operations as calls, and a sequence of calls run in order. *)
Inductive Op : Type :=
| OpRegister (s : SinkRef)
| OpUnregister (h : SinkHandle)
| OpEmit (key : MetricKey) (value : option Payload).

Definition step (op : Op) (st : State) : State * Response :=
  match op with
  | OpRegister s => RegisterSink s st
  | OpUnregister h => (UnregisterSink h st, Done)
  | OpEmit key value => (Emit key value st, Done)
  end.

Fixpoint run (ops : list Op) (st : State) : State * list Response :=
  match ops with
  | [] => (st, [])
  | op :: rest =>
      let '(st1, r) := step op st in
      let '(st2, rs) := run rest st1 in
      (st2, r :: rs)
  end.

Definition is_emit (op : Op) : bool :=
  match op with OpEmit _ _ => true | _ => false end.

Definition registers (s : SinkRef) (op : Op) : bool :=
  match op with OpRegister s' => bool_decide (s' = s) | _ => false end.

(** The handles and the sinks of the table, in table order. *)
Definition handles (st : State) : list SinkHandle := (table (registry st)).*1.
Definition active_sinks (st : State) : list SinkRef := (table (registry st)).*2.

(** The number of deliveries in [ds] that went to sink [s]. *)
Definition received (s : SinkRef) (ds : list Delivery) : nat :=
  length (filter (λ d, to_sink d = s) ds).

(** Under which table entries the deliveries [ds] were made. *)
Definition addressees (ds : list Delivery) : list (SinkHandle * SinkRef) :=
  (λ d, (to_handle d, to_sink d)) <$> ds.

(** The state of a fresh instance after the calls [ops]. *)
Definition after (ops : list Op) (w : World) : State :=
  (run ops (init w)).1.

(** The handles of the table are distinct and all below the counter. *)
Definition handles_fresh (st : State) : Prop :=
  NoDup (handles st) ∧ Forall (λ h, h < next_handle (registry st)) (handles st).

End Core.

(** *** Sinks to run the model on *)

(** Modelled from the spec: "a small fixed set of expected implementations
    (log sink, counter sink, no-op sink)" (section 9); no sink is part of
    the source. The log sink has a bounded buffer and fails when it is
    full, counting what it dropped. *)
Inductive SinkImpl : Type :=
| LogSink (capacity : nat) (buf : list MetricEvent) (dropped : nat)
| CounterSink (count : nat)
| NoopSink.

Definition sink_accept (ev : MetricEvent) (s : SinkImpl) : SinkImpl * option SinkError :=
  match s with
  | LogSink cap buf dropped =>
      if decide (length buf < cap)
      then (LogSink cap (buf ++ [ev]) dropped, None)
      else (LogSink cap buf (S dropped), Some BufferFull)
  | CounterSink n => (CounterSink (S n), None)
  | NoopSink => (NoopSink, None)
  end.

(** Modelled from the spec: the sink objects by address, owned by whoever
    registered them (section 3), and the time. A reference to no object
    fails with [NoSuchSink]. *)
Record Heap : Type := mkHeap {
  objects : gmap SinkRef SinkImpl;
  now : Timestamp
}.

Definition heap_accept (s : SinkRef) (ev : MetricEvent) (w : Heap) : Heap * option SinkError :=
  match objects w !! s with
  | Some obj =>
      let '(obj', verdict) := sink_accept ev obj in
      (mkHeap (<[s := obj']> (objects w)) (now w), verdict)
  | None => (w, Some NoSuchSink)
  end.

(** The events a log sink holds. *)
Definition logged (s : SinkRef) (w : Heap) : list MetricEvent :=
  match objects w !! s with
  | Some (LogSink _ buf _) => buf
  | _ => []
  end.

(** The sinks of the example scenario (section 8): two log sinks [A] and
    [B]; besides them a log sink without room, which fails on every event,
    and a counter. The clock reads 7. *)
Definition sink_A : SinkRef := 10.
Definition sink_B : SinkRef := 20.
Definition sink_stuck : SinkRef := 30.
Definition sink_count : SinkRef := 40.

Definition scenario_heap : Heap :=
  mkHeap (<[sink_A := LogSink 8 [] 0]>
         (<[sink_B := LogSink 8 [] 0]>
         (<[sink_stuck := LogSink 0 [] 0]>
         (<[sink_count := CounterSink 0]> ∅)))) 7.

End Registry.

(** ** What the header contains *)

Section Header.
Import MetricKeys.
Local Open Scope string_scope.
Local Open Scope list_scope.

(** The constants of the model are the constants of the header, in order. *)
Lemma key_constants_values : key_constants.*2 = supported_keys.
Proof. reflexivity. Qed.

Lemma key_constants_names :
  key_constants.*1 =
  [ "kMetricDiscoveryOverBLE"; "kMetricDiscoveryOnNetwork"; "kMetricPASESession";
    "kMetricPASESessionPair"; "kMetricPASESessionBLE"; "kMetricAttestationResult";
    "kMetricAttestationOverridden"; "kMetricCASESession";
    "kMetricCASESessionEstState"; "kMetricWiFiRSSI" ].
Proof. reflexivity. Qed.

(** [MetricKey] stands for [const char *]. *)
Lemma MetricKey_resolves :
  resolve typedefs (TName "MetricKey") = TPtr (TConst TChar).
Proof. reflexivity. Qed.

(** A key constant is no function and cannot be assigned, whatever the
    declaration. *)
Lemma key_constant_immutable (d : decl) :
  is_key_constant d = true →
  is_function d = false ∧ is_mutable_variable d = false ∧ statements d = [].
Proof.
  destruct d as [t n | cx t n init | ret n body]; simpl; try discriminate.
  intros H. repeat (apply andb_prop in H as [H ?]).
  destruct cx; [|discriminate]. done.
Qed.

Lemma typedef_immutable (d : decl) :
  is_MetricKey_typedef d = true →
  is_function d = false ∧ is_mutable_variable d = false ∧ statements d = [].
Proof. destruct d; simpl; try discriminate. done. Qed.

(** C1. Every declaration of the header other than the typedef of
    [MetricKey] is a [constexpr] variable of declared type [MetricKey],
    initialised with a string literal, whose object type is a constant
    pointer to constant characters. There is exactly one typedef; the
    header defines no function, no variable that can be assigned, and
    holds no statement (so no control flow). *)
Theorem header_declares_only_constants :
  Forall (λ d, is_MetricKey_typedef d = true ∨ is_key_constant d = true) declarations
  ∧ length (List.filter is_MetricKey_typedef declarations) = 1
  ∧ Forall (λ d, is_function d = false) declarations
  ∧ Forall (λ d, is_mutable_variable d = false) declarations
  ∧ flat_map statements declarations = [].
Proof.
  assert (Hall : Forall (λ d, is_MetricKey_typedef d = true ∨ is_key_constant d = true)
                        declarations).
  { repeat (constructor; [first [left; reflexivity | right; reflexivity]|]).
    constructor. }
  split; [exact Hall|]. split; [reflexivity|].
  split; [|split; [|reflexivity]].
  - eapply Forall_impl; [exact Hall|]. intros d [H|H].
    + by apply typedef_immutable in H as (? & _).
    + by apply key_constant_immutable in H as (? & _).
  - eapply Forall_impl; [exact Hall|]. intros d [H|H].
    + by apply typedef_immutable in H as (_ & ? & _).
    + by apply key_constant_immutable in H as (_ & ? & _).
Qed.

(** C2. The header defines [kMetricPASESession] with the value
    "pase-session" and [kMetricCASESession] with the value "case-session",
    the two keys of the example scenario. *)
Theorem scenario_keys_defined :
  ("kMetricPASESession", "pase-session") ∈ key_constants
  ∧ ("kMetricCASESession", "case-session") ∈ key_constants
  ∧ kMetricPASESession = "pase-session"
  ∧ kMetricCASESession = "case-session"
  ∧ kMetricPASESession ∈ supported_keys
  ∧ kMetricCASESession ∈ supported_keys.
Proof.
  repeat split; try reflexivity;
    apply (bool_decide_unpack _); vm_compute; exact I.
Qed.

(** C3. The header defines ten constants, [kMetricDiscoveryOverBLE] first
    and [kMetricWiFiRSSI] last, and their string values are pairwise
    distinct: constants at different positions have different values. *)
Theorem key_values_pairwise_distinct :
  length key_constants = 10
  ∧ head key_constants = Some ("kMetricDiscoveryOverBLE", kMetricDiscoveryOverBLE)
  ∧ last key_constants = Some ("kMetricWiFiRSSI", kMetricWiFiRSSI)
  ∧ NoDup key_constants.*2
  ∧ ∀ i j n1 n2 v1 v2,
      key_constants !! i = Some (n1, v1) →
      key_constants !! j = Some (n2, v2) →
      i ≠ j → v1 ≠ v2.
Proof.
  assert (Hnd : NoDup key_constants.*2).
  { apply (bool_decide_unpack _). vm_compute. exact I. }
  split; [reflexivity|]. split; [reflexivity|]. split; [reflexivity|].
  split; [exact Hnd|].
  intros i j n1 n2 v1 v2 Hi Hj Hij ->.
  apply Hij. eapply NoDup_lookup; [exact Hnd| |].
  - rewrite list_lookup_fmap, Hi. reflexivity.
  - rewrite list_lookup_fmap, Hj. reflexivity.
Qed.

Lemma key_values_pairwise_distinct_witness :
  kMetricPASESession ≠ kMetricCASESession.
Proof.
  apply (proj2 (proj2 (proj2 (proj2 key_values_pairwise_distinct)))
           2 7 "kMetricPASESession" "kMetricCASESession").
  - reflexivity.
  - reflexivity.
  - lia.
Defined.

(** C4. The header has 44 lines. 27 of them are comment or blank; of the
    17 others, six are the pragma, the include and the namespace brackets,
    one is the typedef and ten are constant declarations: all declarations
    but one are constants. *)
Theorem header_size :
  length metric_keys_h = 44
  ∧ length code_lines = 17
  ∧ length declarations = 11
  ∧ length (List.filter is_key_constant declarations) = 10
  ∧ length key_constants = 10
  ∧ Forall (λ l, match l with
                 | LDecl d => is_MetricKey_typedef d = true ∨ is_key_constant d = true
                 | _ => True
                 end) metric_keys_h.
Proof.
  repeat (split; [reflexivity|]).
  unfold metric_keys_h. apply Forall_app. split.
  - simpl. repeat constructor.
  - repeat (constructor; [first [exact I | left; reflexivity | right; reflexivity]|]).
    constructor.
Qed.

End Header.

(** ** Lists: filtering and distinct keys *)

Section Lists.
Context {A B : Type}.

Lemma filter_agree (P1 P2 : A → Prop)
    `{!∀ x, Decision (P1 x), !∀ x, Decision (P2 x)} (l : list A) :
  (∀ x, x ∈ l → P1 x ↔ P2 x) → filter P1 l = filter P2 l.
Proof.
  induction l as [|a l IH]; intros Hiff; [done|].
  assert (filter P1 l = filter P2 l) as Hl.
  { apply IH. intros x Hx. apply Hiff. by right. }
  destruct (decide (P1 a)) as [H1|H1].
  - rewrite !filter_cons_True; [by rewrite Hl| |done]. apply Hiff; [left|done].
  - rewrite !filter_cons_False; [done| |done].
    intros H2. apply H1, Hiff; [left|done].
Qed.

Lemma filter_keeps_all (P : A → Prop) `{!∀ x, Decision (P x)} (l : list A) :
  (∀ x, x ∈ l → P x) → filter P l = l.
Proof.
  induction l as [|a l IH]; intros Hall; [done|].
  rewrite filter_cons_True; [|apply Hall; left].
  f_equal. apply IH. intros x Hx. apply Hall. by right.
Qed.

Lemma NoDup_fst_functional (l : list (A * B)) x y1 y2 :
  NoDup l.*1 → (x, y1) ∈ l → (x, y2) ∈ l → y1 = y2.
Proof.
  intros Hnd [i Hi]%list_elem_of_lookup [j Hj]%list_elem_of_lookup.
  assert (i = j) as ->.
  { eapply NoDup_lookup; [exact Hnd| |].
    - rewrite list_lookup_fmap, Hi. reflexivity.
    - rewrite list_lookup_fmap, Hj. reflexivity. }
  congruence.
Qed.

Lemma filter_image_none `{!EqDecision B} (f : A → B) (l : list A) y :
  y ∉ f <$> l → filter (λ x, f x = y) l = [].
Proof.
  induction l as [|a l IH]; simpl; intros Hnotin; [done|].
  rewrite filter_cons_False.
  - apply IH. intros Hy. apply Hnotin. by right.
  - intros Ha. apply Hnotin. rewrite Ha. by left.
Qed.

Lemma filter_image_once `{!EqDecision B} (f : A → B) (l : list A) y :
  NoDup (f <$> l) → y ∈ f <$> l → length (filter (λ x, f x = y) l) = 1.
Proof.
  induction l as [|a l IH]; simpl; intros Hnd Hin.
  - by apply elem_of_nil in Hin.
  - apply NoDup_cons in Hnd as [Hnotin Hnd].
    destruct (decide (f a = y)) as [Heq|Hne].
    + rewrite filter_cons_True by done. simpl. f_equal.
      rewrite filter_image_none; [done|]. by rewrite <- Heq.
    + rewrite filter_cons_False by done. apply IH; [done|].
      apply elem_of_cons in Hin as [->|Hin]; [done|exact Hin].
Qed.

End Lists.

(** ** The emission core *)

Section Emission.
Import MetricKeys Registry.

Context {World : Type}.
Variable accept : SinkRef → MetricEvent → World → World * option SinkError.
Variable clock : World → Timestamp.
Variable max_sinks : nat.

Local Abbreviation State := (@State World).
Local Abbreviation RegisterSink := (@RegisterSink World max_sinks).
Local Abbreviation forward := (forward accept).
Local Abbreviation capture := (capture clock).
Local Abbreviation emitted := (emitted accept clock).
Local Abbreviation Emit := (Emit accept clock).
Local Abbreviation step := (step accept clock max_sinks).
Local Abbreviation run := (run accept clock max_sinks).
Local Abbreviation after := (after accept clock max_sinks).

(** *** The fan-out *)

Lemma forward_addressees ev entries (w : World) :
  addressees (forward ev entries w).2 = entries.
Proof.
  revert w. induction entries as [|[h s] rest IH]; intros w; simpl; [done|].
  destruct (accept s ev w) as [w1 verdict].
  specialize (IH w1). destruct (forward ev rest w1) as [w2 ds].
  simpl in *. by rewrite IH.
Qed.

Lemma forward_events ev entries (w : World) :
  Forall (λ d, event d = ev) (forward ev entries w).2.
Proof.
  revert w. induction entries as [|[h s] rest IH]; intros w; simpl; [constructor|].
  destruct (accept s ev w) as [w1 verdict].
  specialize (IH w1). destruct (forward ev rest w1) as [w2 ds].
  simpl in *. by constructor.
Qed.

Lemma emitted_addressees key value (st : State) :
  addressees (emitted key value st) = table (registry st).
Proof. apply forward_addressees. Qed.

Lemma emitted_events key value (st : State) :
  Forall (λ d, event d = capture key value st) (emitted key value st).
Proof. apply forward_events. Qed.

Lemma Emit_registry key value (st : State) :
  registry (Emit key value st) = registry st.
Proof.
  unfold Registry.Emit.
  by destruct (forward (capture key value st) (table (registry st)) (world st)).
Qed.

Lemma Emit_deliveries key value (st : State) :
  deliveries (Emit key value st) = deliveries st ++ emitted key value st.
Proof.
  unfold Registry.Emit, Registry.emitted.
  by destruct (forward (capture key value st) (table (registry st)) (world st)).
Qed.

(** What [forward] does to the world: it lets each entry's sink accept the
    event, first entry first, each on the world the one before it left,
    and goes on whatever the verdicts are. *)
Lemma forward_world ev entries (w : World) :
  (forward ev entries w).1 = foldl (λ w' e, (accept e.2 ev w').1) w entries.
Proof.
  revert w. induction entries as [|[h s] rest IH]; intros w; simpl; [done|].
  destruct (accept s ev w) as [w1 verdict].
  specialize (IH w1). destruct (forward ev rest w1) as [w2 ds].
  simpl in *. exact IH.
Qed.

(** The deliveries noted are the calls made: the one at position [i] is to
    the sink of entry [i], and its status is the verdict that sink gave on
    the world the entries before it left. *)
Lemma forward_verdicts ev entries (w : World) i h s :
  entries !! i = Some (h, s) →
  (forward ev entries w).2 !! i =
  Some (mkDelivery h s ev
          (accept s ev (foldl (λ w' e, (accept e.2 ev w').1) w (take i entries))).2).
Proof.
  revert w i. induction entries as [|[h0 s0] rest IH]; intros w i Hi; [done|].
  simpl. destruct (accept s0 ev w) as [w1 verdict] eqn:Hacc.
  specialize (IH w1). destruct (forward ev rest w1) as [w2 ds].
  destruct i as [|i]; simpl in *.
  - injection Hi as -> ->. by rewrite Hacc.
  - rewrite Hacc. simpl. by apply IH.
Qed.

Lemma foldl_accept_sinks ev (entries : list (SinkHandle * SinkRef)) (w : World) :
  foldl (λ w' e, (accept e.2 ev w').1) w entries =
  foldl (λ w' s, (accept s ev w').1) w entries.*2.
Proof. by rewrite foldl_fmap. Qed.

Lemma Emit_world key value (st : State) :
  world (Emit key value st) =
  foldl (λ w' e, (accept e.2 (capture key value st) w').1)
        (world st) (table (registry st)).
Proof.
  unfold Registry.Emit. rewrite <- forward_world.
  by destruct (forward (capture key value st) (table (registry st)) (world st)).
Qed.

(** An observation that only the sink [s] can change is left as it is by
    entries of other sinks. *)
Lemma foldl_accept_frame {A} (obs : World → A) s ev entries (w : World) :
  (∀ s' ev' w', s' ≠ s → obs (accept s' ev' w').1 = obs w') →
  Forall (λ e : SinkHandle * SinkRef, e.2 ≠ s) entries →
  obs (foldl (λ w' e, (accept e.2 ev w').1) w entries) = obs w.
Proof.
  intros Hobs. revert w. induction entries as [|e rest IH]; intros w Hall; [done|].
  apply Forall_cons in Hall as [He Hall]. simpl.
  rewrite IH by done. by apply Hobs.
Qed.

Lemma addressees_to_sink (ds : list Delivery) :
  to_sink <$> ds = (addressees ds).*2.
Proof. unfold addressees. rewrite <- list_fmap_compose. done. Qed.

(** *** Sequences of calls *)

Lemma run_emit_responses ops (st : State) i key value :
  ops !! i = Some (OpEmit key value) → (run ops st).2 !! i = Some Done.
Proof.
  revert st i. induction ops as [|op ops IH]; intros st i Hi; [done|].
  simpl. destruct (step op st) as [st1 r] eqn:Hstep.
  specialize (IH st1). destruct (run ops st1) as [st2 rs].
  destruct i as [|i]; simpl in *.
  - injection Hi as ->. by injection Hstep as _ <-.
  - by apply IH.
Qed.

(** *** Handles stay distinct *)

Lemma init_handles_fresh (w : World) : handles_fresh (init w).
Proof. split; constructor. Qed.

Lemma RegisterSink_free s (st : State) :
  length (table (registry st)) < max_sinks →
  RegisterSink s st =
  (mkState (mkRegistry (table (registry st) ++ [(next_handle (registry st), s)])
                       (S (next_handle (registry st))))
           (world st) (deliveries st),
   Handle (next_handle (registry st))).
Proof. intros H. unfold Registry.RegisterSink. by rewrite decide_True. Qed.

Lemma RegisterSink_full s (st : State) :
  max_sinks ≤ length (table (registry st)) →
  RegisterSink s st = (st, Failure SinkTableFull).
Proof. intros H. unfold Registry.RegisterSink. rewrite decide_False; [done|lia]. Qed.

Lemma step_handles_fresh op (st : State) :
  handles_fresh st → handles_fresh (step op st).1.
Proof.
  intros [Hnd Hlt]. destruct op as [s|h|key value]; simpl.
  - unfold Registry.RegisterSink. case_decide; [|done].
    unfold handles_fresh, handles in *. simpl. rewrite fmap_app. simpl. split.
    + apply NoDup_app. split; [done|]. split; [|apply NoDup_singleton].
      intros h Hin ->%list_elem_of_singleton.
      rewrite Forall_forall in Hlt. specialize (Hlt _ Hin). lia.
    + apply Forall_app. split.
      * eapply Forall_impl; [exact Hlt|]. simpl. lia.
      * repeat constructor.
  - unfold handles_fresh, handles in *. simpl. split.
    + eapply sublist_NoDup; [exact Hnd|]. apply fmap_sublist, sublist_filter.
    + rewrite Forall_forall in Hlt. apply Forall_forall. intros h' Hin.
      apply Hlt. eapply elem_of_sublist; [exact Hin|].
      apply fmap_sublist, sublist_filter.
  - unfold handles_fresh, handles. by rewrite Emit_registry.
Qed.

Lemma run_handles_fresh ops (st : State) :
  handles_fresh st → handles_fresh (run ops st).1.
Proof.
  revert st. induction ops as [|op ops IH]; intros st Hst; simpl; [done|].
  pose proof (step_handles_fresh op st Hst) as H1.
  destruct (step op st) as [st1 r]. specialize (IH st1 H1).
  by destruct (run ops st1).
Qed.

Lemma after_handles_fresh ops (w : World) : handles_fresh (after ops w).
Proof. apply run_handles_fresh, init_handles_fresh. Qed.

(** *** What later calls deliver

    If every state that satisfies [I] delivers only under entries that
    satisfy [P], and the calls in [ops] keep [I], then everything [ops]
    delivers satisfies [P]. *)
Lemma run_deliveries_inv (I : State → Prop) (P : SinkHandle * SinkRef → Prop)
    (allowed : Op → Prop) :
  (∀ op st, allowed op → I st → I (step op st).1) →
  (∀ st, I st → Forall P (table (registry st))) →
  ∀ ops st, Forall allowed ops → I st →
    ∃ new, deliveries (run ops st).1 = deliveries st ++ new
           ∧ Forall P (addressees new).
Proof.
  intros Hstep Htable. induction ops as [|op ops IH]; intros st Hall Hst; simpl.
  - exists []. by rewrite app_nil_r.
  - apply Forall_cons in Hall as [Hop Hall].
    pose proof (Hstep op st Hop Hst) as Hst1.
    assert (∃ new, deliveries (step op st).1 = deliveries st ++ new
                   ∧ Forall P (addressees new)) as (new1 & Hd1 & HP1).
    { destruct op as [s|h|key value]; simpl.
      - exists []. rewrite app_nil_r. split; [|constructor].
        unfold Registry.RegisterSink. by case_decide.
      - exists []. by rewrite app_nil_r.
      - exists (emitted key value st). split; [apply Emit_deliveries|].
        rewrite emitted_addressees. by apply Htable. }
    destruct (step op st) as [st1 r]. simpl in *.
    destruct (IH st1 Hall Hst1) as (new2 & Hd2 & HP2).
    destruct (run ops st1) as [st2 rs]. simpl in *.
    exists (new1 ++ new2). split.
    + by rewrite Hd2, Hd1, app_assoc.
    + unfold addressees in *. rewrite fmap_app. by apply Forall_app.
Qed.

(** C5. After any sequence of calls on a fresh instance, with sinks that
    behave in any way (failing ones included) and for any key (whether the
    header defines it or not): every [Emit] of the sequence answered
    [Done]; a further [Emit key value] answers [Done], leaves the sink
    table as it is, and makes one delivery per table entry, in table
    order, each carrying [key] and [value] unchanged. On the world of the
    sinks: [Emit] lets the sink of every table entry accept the event with
    this very key and value, first entry first, each on the world the
    previous sink left, whatever the previous sinks answered; and the
    status noted for entry [i] is the verdict its sink gave there, so a
    failure is noted and goes no further. *)
Theorem Emit_never_fails (ops : list Op) (w : World) (key : MetricKey)
    (value : option Payload) :
  (∀ i k v, ops !! i = Some (OpEmit k v) → (run ops (init w)).2 !! i = Some Done)
  ∧ (step (OpEmit key value) (after ops w)).2 = Done
  ∧ registry (Emit key value (after ops w)) = registry (after ops w)
  ∧ deliveries (Emit key value (after ops w)) =
      deliveries (after ops w) ++ emitted key value (after ops w)
  ∧ addressees (emitted key value (after ops w)) = table (registry (after ops w))
  ∧ Forall (λ d, ev_key (event d) = key ∧ ev_value (event d) = value)
           (emitted key value (after ops w))
  ∧ world (Emit key value (after ops w)) =
      foldl (λ w' e, (accept e.2 (mkEvent key value (clock (world (after ops w)))) w').1)
            (world (after ops w)) (table (registry (after ops w)))
  ∧ (∀ i h s, table (registry (after ops w)) !! i = Some (h, s) →
       emitted key value (after ops w) !! i =
       Some (mkDelivery h s (mkEvent key value (clock (world (after ops w))))
               (accept s (mkEvent key value (clock (world (after ops w))))
                  (foldl (λ w' e,
                            (accept e.2 (mkEvent key value (clock (world (after ops w))))
                                    w').1)
                         (world (after ops w))
                         (take i (table (registry (after ops w)))))).2)).
Proof.
  split; [intros i k v; apply run_emit_responses|].
  split; [reflexivity|].
  split; [apply Emit_registry|].
  split; [apply Emit_deliveries|].
  split; [apply emitted_addressees|].
  split.
  { eapply Forall_impl; [apply emitted_events|]. by intros d ->. }
  split; [apply Emit_world|].
  intros i h s Hi. by apply forward_verdicts.
Qed.

(** C7. With an empty sink table [Emit] changes nothing: the state after
    it (sink table, handle counter, the sinks' world and the deliveries
    made so far) is the state before it, and it makes no delivery. *)
Theorem Emit_without_sinks (st : State) (key : MetricKey) (value : option Payload) :
  table (registry st) = [] →
  Emit key value st = st
  ∧ emitted key value st = []
  ∧ step (OpEmit key value) st = (st, Done).
Proof.
  intros Hempty.
  assert (Emit key value st = st) as Heq.
  { unfold Registry.Emit. rewrite Hempty. simpl. rewrite app_nil_r. by destruct st. }
  split; [exact Heq|]. split.
  - unfold Registry.emitted. by rewrite Hempty.
  - simpl. by rewrite Heq.
Qed.

(** *** Registration in a row *)

Lemma run_registers (sinks : list SinkRef) (st : State) :
  length (table (registry st)) + length sinks ≤ max_sinks →
  run (OpRegister <$> sinks) st =
  (mkState
     (mkRegistry
        (table (registry st) ++ zip (seq (next_handle (registry st)) (length sinks)) sinks)
        (next_handle (registry st) + length sinks))
     (world st) (deliveries st),
   Handle <$> seq (next_handle (registry st)) (length sinks)).
Proof.
  revert st. induction sinks as [|s sinks IH]; intros st Hlen; simpl.
  - rewrite app_nil_r, Nat.add_0_r. by destruct st as [[] ? ?].
  - simpl in Hlen. rewrite RegisterSink_free by lia.
    rewrite IH; simpl; [|rewrite length_app; simpl; lia].
    rewrite <- app_assoc. simpl. do 3 f_equal. lia.
Qed.

Lemma after_registers (sinks : list SinkRef) (w : World) :
  length sinks ≤ max_sinks →
  after (OpRegister <$> sinks) w =
  mkState (mkRegistry (zip (seq 0 (length sinks)) sinks) (length sinks)) w [].
Proof.
  intros Hlen. unfold Registry.after. by rewrite run_registers.
Qed.

(** C6. Registering the sinks [sinks], no more than [max_sinks] of them,
    on a fresh instance succeeds for each, with the handles 0, 1, ... in
    turn. One [Emit] after that makes exactly the deliveries to [sinks],
    one per sink and in the order of registration, each carrying the
    emitted event. When the sinks are distinct, each of them receives
    exactly one delivery. On the world of the sinks: the world after the
    [Emit] is the world [w] after the first registered sink has accepted
    the event, then the second, and so on through [sinks], each sink once;
    and the status noted for the sink at position [i] is the verdict it
    gave when its turn came. *)
Theorem Emit_reaches_all_in_order (sinks : list SinkRef) (w : World)
    (key : MetricKey) (value : option Payload) :
  length sinks ≤ max_sinks →
  (run (OpRegister <$> sinks) (init w)).2 = Handle <$> seq 0 (length sinks)
  ∧ active_sinks (after (OpRegister <$> sinks) w) = sinks
  ∧ to_sink <$> deliveries (Emit key value (after (OpRegister <$> sinks) w)) = sinks
  ∧ Forall (λ d, event d = mkEvent key value (clock w))
           (deliveries (Emit key value (after (OpRegister <$> sinks) w)))
  ∧ (NoDup sinks → ∀ s, s ∈ sinks →
       received s (deliveries (Emit key value (after (OpRegister <$> sinks) w))) = 1)
  ∧ world (Emit key value (after (OpRegister <$> sinks) w)) =
      foldl (λ w' s, (accept s (mkEvent key value (clock w)) w').1) w sinks
  ∧ (∀ (i : nat) s, sinks !! i = Some s →
       deliveries (Emit key value (after (OpRegister <$> sinks) w)) !! i =
       Some (mkDelivery i s (mkEvent key value (clock w))
               (accept s (mkEvent key value (clock w))
                  (foldl (λ w' s', (accept s' (mkEvent key value (clock w)) w').1)
                         w (take i sinks))).2)).
Proof.
  intros Hlen.
  assert (Hsnd : (zip (seq 0 (length sinks)) sinks).*2 = sinks).
  { apply snd_zip. by rewrite length_seq. }
  assert (Hto : to_sink <$> deliveries (Emit key value (after (OpRegister <$> sinks) w))
                = sinks).
  { rewrite Emit_deliveries, after_registers by done. simpl.
    rewrite addressees_to_sink, emitted_addressees. exact Hsnd. }
  split; [by rewrite run_registers|].
  split; [unfold active_sinks; by rewrite after_registers|].
  split; [exact Hto|]. split.
  - rewrite Emit_deliveries, after_registers by done. simpl.
    apply (emitted_events key value
             (mkState (mkRegistry (zip (seq 0 (length sinks)) sinks) (length sinks)) w [])).
  - split; [|split].
    + intros Hnd s Hs. unfold received.
      apply filter_image_once; rewrite Hto; done.
    + rewrite Emit_world, after_registers by done.
      rewrite foldl_accept_sinks. cbn [table registry world].
      f_equal. exact Hsnd.
    + intros i s Hi.
      rewrite Emit_deliveries, after_registers by done. simpl.
      unfold Registry.emitted. simpl.
      assert (Hentry : zip (seq 0 (length sinks)) sinks !! i = Some (i, s)).
      { apply lookup_zip_with_Some. exists i, s. split; [done|]. split; [|done].
        apply lookup_seq. split; [done|]. by eapply lookup_lt_Some. }
      rewrite (forward_verdicts _ _ _ i i s Hentry).
      rewrite foldl_accept_sinks, fmap_take.
      unfold SinkHandle, SinkRef in *. by rewrite Hsnd.
Qed.

(** *** Removal *)

Lemma UnregisterSink_absent h (st : State) :
  h ∉ handles st → UnregisterSink h st = st.
Proof.
  intros Hnotin. unfold UnregisterSink.
  rewrite filter_keeps_all; [by destruct st as [[] ? ?]|].
  intros [h' s'] Hin Heq. simpl in Heq. subst h'.
  apply Hnotin. unfold handles.
  by apply (list_elem_of_fmap_2 fst) in Hin.
Qed.

Lemma UnregisterSink_handles h (st : State) :
  h ∉ handles (UnregisterSink h st).
Proof.
  unfold handles. simpl.
  intros ([h' s'] & Heq & Hin)%list_elem_of_fmap. simpl in Heq. subst h'.
  by apply list_elem_of_filter in Hin as [Hne _].
Qed.

Lemma UnregisterSink_table h s (st : State) :
  handles_fresh st → (h, s) ∈ table (registry st) →
  table (registry (UnregisterSink h st)) =
  filter (λ e, e ≠ (h, s)) (table (registry st)).
Proof.
  intros [Hnd _] Hin. simpl. apply filter_agree.
  intros [h' s'] Hin'. simpl. split.
  - intros Hne [= -> ->]. done.
  - intros Hne ->. apply Hne. f_equal.
    by eapply NoDup_fst_functional.
Qed.

(** A handle that is below the counter and not in the table never comes
    back. *)
Lemma step_handle_gone h op (st : State) :
  (h ∉ handles st) ∧ (h < next_handle (registry st)) →
  (h ∉ handles (step op st).1) ∧ (h < next_handle (registry (step op st).1)).
Proof.
  intros [Hnotin Hlt]. destruct op as [s|h0|key value]; simpl.
  - unfold Registry.RegisterSink. case_decide; [|done]. simpl. split; [|lia].
    unfold handles. simpl. rewrite fmap_app. simpl.
    intros [Hin|Hin%list_elem_of_singleton]%elem_of_app; [done|lia].
  - split; [|done]. unfold handles in *. simpl. intros Hin. apply Hnotin.
    eapply elem_of_sublist; [exact Hin|]. apply fmap_sublist, sublist_filter.
  - unfold handles in *. by rewrite Emit_registry.
Qed.

(** A sink that is not in the table stays out of it unless it is
    registered again. *)
Lemma step_sink_gone s op (st : State) :
  registers s op = false →
  s ∉ active_sinks st → s ∉ active_sinks ((step op st).1).
Proof.
  intros Hop Hnotin. destruct op as [s0|h0|key value]; simpl.
  - unfold Registry.RegisterSink. case_decide; [|done].
    unfold active_sinks. simpl. rewrite fmap_app. simpl.
    intros [Hin|Hin%list_elem_of_singleton]%elem_of_app; [done|].
    simpl in Hop. apply bool_decide_eq_false in Hop. by apply Hop.
  - unfold active_sinks in *. simpl. intros Hin. apply Hnotin.
    eapply elem_of_sublist; [exact Hin|]. apply fmap_sublist, sublist_filter.
  - unfold active_sinks in *. by rewrite Emit_registry.
Qed.

(** While [s] is out of the table and is not registered again, no call
    changes what only [s] could change. *)
Lemma run_frame {A} (obs : World → A) s ops (st : State) :
  (∀ s' ev' w', s' ≠ s → obs (accept s' ev' w').1 = obs w') →
  Forall (λ op, registers s op = false) ops →
  s ∉ active_sinks st →
  obs (world (run ops st).1) = obs (world st).
Proof.
  intros Hobs. revert st. induction ops as [|op ops IH]; intros st Hall Hst; [done|].
  apply Forall_cons in Hall as [Hop Hall]. simpl.
  pose proof (step_sink_gone s op st Hop Hst) as Hst1.
  assert (obs (world (step op st).1) = obs (world st)) as Hw1.
  { destruct op as [s0|h0|key value]; simpl.
    - unfold Registry.RegisterSink. by case_decide.
    - done.
    - rewrite Emit_world. apply (foldl_accept_frame obs s); [exact Hobs|].
      apply Forall_forall. intros [h' s'] Hin Heq. simpl in Heq. subst s'.
      apply Hst. unfold active_sinks.
      by apply (list_elem_of_fmap_2 snd) in Hin. }
  destruct (step op st) as [st1 r]. simpl in *.
  specialize (IH st1 Hall Hst1).
  destruct (run ops st1) as [st2 rs]. simpl in *. congruence.
Qed.


(** C9. Let [st] be the state after any calls on a fresh instance. When
    the table holds [max_sinks] entries, [RegisterSink] answers with the
    failure [SinkTableFull] and leaves the state as it is. When it holds
    fewer, [RegisterSink s] answers with a handle [h] that no entry of the
    table carries, appends [(h, s)] to the table and touches nothing else;
    the next [Emit] delivers to [s] under [h], and [UnregisterSink h]
    gives the former table back. *)
Theorem RegisterSink_reports_full_table (ops : list Op) (w : World) (s : SinkRef)
    (key : MetricKey) (value : option Payload) (st : State) :
  st = after ops w →
  (max_sinks ≤ length (table (registry st)) →
     RegisterSink s st = (st, Failure SinkTableFull))
  ∧ (length (table (registry st)) < max_sinks →
     ∃ h st', RegisterSink s st = (st', Handle h)
       ∧ table (registry st') = table (registry st) ++ [(h, s)]
       ∧ (h ∉ handles st)
       ∧ world st' = world st
       ∧ deliveries st' = deliveries st
       ∧ (h, s) ∈ addressees (emitted key value st')
       ∧ table (registry (UnregisterSink h st')) = table (registry st)).
Proof.
  intros Hst. split; [apply RegisterSink_full|].
  intros Hfree.
  assert (Hfresh : handles_fresh st) by (subst st; apply after_handles_fresh).
  destruct Hfresh as [_ Hlt]. rewrite Forall_forall in Hlt.
  assert (Hnew : next_handle (registry st) ∉ handles st).
  { intros Hin. specialize (Hlt _ Hin). lia. }
  eexists _, _. split; [by apply RegisterSink_free|]. simpl.
  split; [done|]. split; [exact Hnew|]. split; [done|]. split; [done|]. split.
  - rewrite emitted_addressees. simpl. apply elem_of_app. right. by left.
  - rewrite filter_app. rewrite filter_cons_False by (simpl; tauto).
    rewrite filter_nil, app_nil_r. apply filter_keeps_all.
    intros [h' s'] Hin Heq. simpl in Heq. subst h'. apply Hnew. unfold handles.
    by apply (list_elem_of_fmap_2 fst) in Hin.
Qed.

End Emission.

(** ** The example scenario *)

Section Scenario.
Import MetricKeys Registry.
Local Open Scope string_scope.
Local Open Scope list_scope.

Local Abbreviation run4 := (run heap_accept now 4).
Local Abbreviation after4 := (after heap_accept now 4).

(** Section 8: register [A] and [B]; [Emit("pase-session", 1)] is recorded
    once by each. Then unregister [A] (its handle is 0, the first one
    given out); [Emit("case-session", 0)] is recorded by [B] only. *)
Example scenario_two_sinks :
  (run4 [OpRegister sink_A; OpRegister sink_B] (init scenario_heap)).2
    = [Handle 0; Handle 1]
  ∧ logged sink_A (world (after4 [OpRegister sink_A; OpRegister sink_B;
                                  OpEmit kMetricPASESession (Some (PNum 1))]
                                 scenario_heap))
    = [mkEvent "pase-session" (Some (PNum 1)) 7]
  ∧ logged sink_B (world (after4 [OpRegister sink_A; OpRegister sink_B;
                                  OpEmit kMetricPASESession (Some (PNum 1))]
                                 scenario_heap))
    = [mkEvent "pase-session" (Some (PNum 1)) 7]
  ∧ logged sink_A (world (after4 [OpRegister sink_A; OpRegister sink_B;
                                  OpEmit kMetricPASESession (Some (PNum 1));
                                  OpUnregister 0;
                                  OpEmit kMetricCASESession (Some (PNum 0))]
                                 scenario_heap))
    = [mkEvent "pase-session" (Some (PNum 1)) 7]
  ∧ logged sink_B (world (after4 [OpRegister sink_A; OpRegister sink_B;
                                  OpEmit kMetricPASESession (Some (PNum 1));
                                  OpUnregister 0;
                                  OpEmit kMetricCASESession (Some (PNum 0))]
                                 scenario_heap))
    = [mkEvent "pase-session" (Some (PNum 1)) 7;
       mkEvent "case-session" (Some (PNum 0)) 7].
Proof. vm_compute. repeat split. Qed.

(** A sink that fails does not keep the next one from its event: the log
    sink without room answers [BufferFull], [B] is served all the same. *)
Example failing_sink_is_passed_over :
  emitted heap_accept now "no-such-key" None
          (after4 [OpRegister sink_stuck; OpRegister sink_B] scenario_heap)
  = [ mkDelivery 0 sink_stuck (mkEvent "no-such-key" None 7) (Some BufferFull);
      mkDelivery 1 sink_B (mkEvent "no-such-key" None 7) None ].
Proof. vm_compute. reflexivity. Qed.

(** A sink registered twice is served twice, once under each handle. *)
Example sink_registered_twice :
  addressees (emitted heap_accept now kMetricWiFiRSSI (Some (PNum (-60)))
                (after4 [OpRegister sink_A; OpRegister sink_A] scenario_heap))
  = [(0, sink_A); (1, sink_A)].
Proof. vm_compute. reflexivity. Qed.

(** In the heap of sink objects a call of one sink leaves the log of every
    other sink alone. *)
Lemma heap_accept_frame (s s' : SinkRef) (ev : MetricEvent) (w : Heap) :
  s' ≠ s → logged s (heap_accept s' ev w).1 = logged s w.
Proof.
  intros Hne. unfold heap_accept, logged.
  destruct (objects w !! s') as [obj|] eqn:Hobj; [|done].
  destruct (sink_accept ev obj) as [obj' verdict]. simpl.
  by rewrite lookup_insert_ne.
Qed.

Lemma Emit_never_fails_witness :
  (run4 [OpRegister sink_stuck; OpEmit kMetricPASESession None;
         OpRegister sink_B] (init scenario_heap)).2 !! 1%nat = Some Done
  ∧ (step heap_accept now 4 (OpEmit "no-such-key" None)
        (after4 [OpRegister sink_stuck; OpEmit kMetricPASESession None;
                 OpRegister sink_B] scenario_heap)).2 = Done
  ∧ addressees (emitted heap_accept now "no-such-key" None
        (after4 [OpRegister sink_stuck; OpEmit kMetricPASESession None;
                 OpRegister sink_B] scenario_heap))
    = [(0, sink_stuck); (1, sink_B)]%nat
  ∧ logged sink_B (world (Emit heap_accept now "no-such-key" None
        (after4 [OpRegister sink_stuck; OpEmit kMetricPASESession None;
                 OpRegister sink_B] scenario_heap)))
    = [mkEvent "no-such-key" None 7]
  ∧ objects (world (Emit heap_accept now "no-such-key" None
        (after4 [OpRegister sink_stuck; OpEmit kMetricPASESession None;
                 OpRegister sink_B] scenario_heap))) !! sink_stuck
    = Some (LogSink 0 [] 2)
  ∧ status <$> emitted heap_accept now "no-such-key" None
        (after4 [OpRegister sink_stuck; OpEmit kMetricPASESession None;
                 OpRegister sink_B] scenario_heap) !! 0%nat
    = Some (Some BufferFull).
Proof.
  pose proof (Emit_never_fails heap_accept now 4
                [OpRegister sink_stuck; OpEmit kMetricPASESession None;
                 OpRegister sink_B] scenario_heap "no-such-key" None)
    as (Hall & Hdone & _ & _ & Hto & _ & Hworld & Hverdict).
  split; [|split; [|split; [|split; [|split]]]].
  - apply (Hall 1%nat kMetricPASESession None). reflexivity.
  - exact Hdone.
  - rewrite Hto. vm_compute. reflexivity.
  - rewrite Hworld. vm_compute. reflexivity.
  - rewrite Hworld. vm_compute. reflexivity.
  - rewrite (Hverdict 0%nat 0%nat sink_stuck); [|reflexivity].
    vm_compute. reflexivity.
Defined.

Lemma Emit_without_sinks_witness :
  Emit heap_accept now kMetricCASESession (Some (PNum 0)) (init scenario_heap)
  = init scenario_heap.
Proof.
  apply (Emit_without_sinks heap_accept now 4 (init scenario_heap)
           kMetricCASESession (Some (PNum 0))).
  reflexivity.
Defined.

Lemma Emit_reaches_all_in_order_witness :
  to_sink <$> deliveries
    (Emit heap_accept now kMetricPASESession (Some (PNum 1))
       (after4 (OpRegister <$> [sink_A; sink_stuck; sink_B]) scenario_heap))
  = [sink_A; sink_stuck; sink_B]
  ∧ received sink_B (deliveries
      (Emit heap_accept now kMetricPASESession (Some (PNum 1))
         (after4 (OpRegister <$> [sink_A; sink_stuck; sink_B]) scenario_heap)))
    = 1%nat
  ∧ objects (world
      (Emit heap_accept now kMetricPASESession (Some (PNum 1))
         (after4 (OpRegister <$> [sink_A; sink_stuck; sink_B]) scenario_heap)))
    = <[sink_A := LogSink 8 [mkEvent "pase-session" (Some (PNum 1)) 7] 0]>
      (<[sink_B := LogSink 8 [mkEvent "pase-session" (Some (PNum 1)) 7] 0]>
      (<[sink_stuck := LogSink 0 [] 1]>
      (<[sink_count := CounterSink 0]> ∅)))
  ∧ status <$> deliveries
      (Emit heap_accept now kMetricPASESession (Some (PNum 1))
         (after4 (OpRegister <$> [sink_A; sink_stuck; sink_B]) scenario_heap))
      !! 1%nat
    = Some (Some BufferFull).
Proof.
  assert (Hlen : (length [sink_A; sink_stuck; sink_B] ≤ 4)%nat) by (simpl; lia).
  pose proof (Emit_reaches_all_in_order heap_accept now 4
                [sink_A; sink_stuck; sink_B] scenario_heap
                kMetricPASESession (Some (PNum 1)) Hlen)
    as (_ & _ & Hto & _ & Honce & Hworld & Hverdict).
  split; [exact Hto|]. split; [|split].
  - apply Honce.
    + apply (bool_decide_unpack _). vm_compute. exact I.
    + apply (bool_decide_unpack _). vm_compute. exact I.
  - rewrite Hworld. vm_compute. reflexivity.
  - rewrite (Hverdict 1%nat sink_stuck); [|reflexivity].
    vm_compute. reflexivity.
Defined.


Lemma RegisterSink_reports_full_table_witness :
  RegisterSink 2 sink_count
    (after heap_accept now 2 [OpRegister sink_A; OpRegister sink_B] scenario_heap)
  = (after heap_accept now 2 [OpRegister sink_A; OpRegister sink_B] scenario_heap,
     Failure SinkTableFull)
  ∧ ∃ h st',
      RegisterSink 4 sink_count
        (after4 [OpRegister sink_A; OpRegister sink_B] scenario_heap)
      = (st', Handle h)
      ∧ table (registry st') = [(0, sink_A); (1, sink_B); (h, sink_count)].
Proof.
  split.
  - apply (RegisterSink_reports_full_table heap_accept now 2
             [OpRegister sink_A; OpRegister sink_B] scenario_heap sink_count
             kMetricWiFiRSSI None _ eq_refl).
    vm_compute. lia.
  - destruct (RegisterSink_reports_full_table heap_accept now 4
                [OpRegister sink_A; OpRegister sink_B] scenario_heap sink_count
                kMetricWiFiRSSI None _ eq_refl) as [_ Hfree].
    destruct Hfree as (h & st' & Hreg & Htab & _).
    + vm_compute. lia.
    + exists h, st'. split; [exact Hreg|]. rewrite Htab. reflexivity.
Defined.

End Scenario.

(** ** Scopes, names and values of the header *)

Section KeyTableFacts.
Import MetricKeys KeyTable.
Local Open Scope string_scope.
Local Open Scope list_scope.

(** X1. The namespaces of the header are balanced. [#pragma once] comes
    first and, like the include, stands outside every namespace; the
    typedef and the ten constants all stand in [chip::Tracing]. The comment
    behind each closing brace names the namespace that the brace closes. *)
Theorem header_scopes :
  place [] metric_keys_h =
    Some ([ ([], LPragma "once");
            ([], LInclude "matter/tracing/build_config.h") ]
          ++ ((λ d, (["chip"; "Tracing"], LDecl d)) <$> declarations))
  ∧ closings [] metric_keys_h = [("Tracing", "Tracing"); ("chip", "chip")].
Proof. split; reflexivity. Qed.

(** X2. No name is declared twice in the header, the typedef included, and
    names and values of the constants correspond one to one: two constants
    have the same name exactly when they have the same value. *)
Theorem key_names_one_to_one (n1 n2 : string) (v1 v2 : MetricKey) :
  (n1, v1) ∈ key_constants → (n2, v2) ∈ key_constants →
  NoDup (decl_name <$> declarations) ∧ (n1 = n2 ↔ v1 = v2).
Proof.
  intros H1 H2. split.
  { apply (bool_decide_unpack _). vm_compute. exact I. }
  assert (Hnames : NoDup key_constants.*1).
  { apply (bool_decide_unpack _). vm_compute. exact I. }
  assert (Hvalues : NoDup key_constants.*2).
  { apply (bool_decide_unpack _). vm_compute. exact I. }
  split.
  - intros <-. by eapply NoDup_fst_functional.
  - intros <-.
    apply list_elem_of_lookup in H1 as [i Hi].
    apply list_elem_of_lookup in H2 as [j Hj].
    assert (i = j) as ->.
    { eapply NoDup_lookup; [exact Hvalues| |].
      - rewrite list_lookup_fmap, Hi. reflexivity.
      - rewrite list_lookup_fmap, Hj. reflexivity. }
    congruence.
Qed.

Lemma key_names_one_to_one_witness :
  "kMetricCASESession" = "kMetricCASESessionEstState"
  ↔ kMetricCASESession = kMetricCASESessionEstState.
Proof.
  apply (key_names_one_to_one "kMetricCASESession" "kMetricCASESessionEstState"
           kMetricCASESession kMetricCASESessionEstState).
  - apply (bool_decide_unpack _). vm_compute. exact I.
  - apply (bool_decide_unpack _). vm_compute. exact I.
Defined.

(** X3. Every key value is a token of 9 to 22 characters made of lowercase
    letters, hyphens and underscores, with a letter first and last: no key
    is empty, none holds a blank, a digit, a capital or a character that a
    log line or a quoted string would have to escape. The longest value,
    22 characters, is that of [kMetricAttestationOverridden]. *)
Theorem key_values_plain_tokens :
  Forall (λ v, is_plain_token v = true
               ∧ (9 ≤ String.length v)%nat ∧ (String.length v ≤ 22)%nat)
         key_constants.*2
  ∧ String.length kMetricAttestationOverridden = 22%nat
  ∧ is_plain_token "" = false.
Proof.
  split; [|split; reflexivity].
  repeat (constructor; [split; [reflexivity | simpl; lia]|]).
  constructor.
Qed.

(** X4. Among the key values exactly two pairs stand in the prefix
    relation: the value of [kMetricPASESession] begins those of
    [kMetricPASESessionPair] and [kMetricPASESessionBLE]. No other key
    value begins another one, so a comparison that stops at the end of the
    shorter string confuses these keys and no others. *)
Theorem key_value_prefixes (v1 v2 : MetricKey) :
  v1 ∈ supported_keys → v2 ∈ supported_keys → v1 ≠ v2 →
  String.prefix v1 v2 = true
  ↔ v1 = kMetricPASESession
    ∧ (v2 = kMetricPASESessionPair ∨ v2 = kMetricPASESessionBLE).
Proof.
  unfold supported_keys. intros H1 H2.
  repeat (apply elem_of_cons in H1 as [->|H1]);
    [..|by apply elem_of_nil in H1];
    repeat (apply elem_of_cons in H2 as [->|H2]);
    try (by apply elem_of_nil in H2);
    intros Hne; try congruence; clear Hne;
    (split;
     [ intros H; first [ discriminate H
                       | split; [reflexivity | first [left; reflexivity | right; reflexivity]] ]
     | intros [E [E2|E2]]; first [reflexivity | discriminate E | discriminate E2] ]).
Qed.

Lemma key_value_prefixes_witness :
  String.prefix kMetricPASESession kMetricPASESessionBLE = true
  ∧ String.prefix kMetricCASESession kMetricCASESessionEstState = false.
Proof.
  split.
  - apply (key_value_prefixes kMetricPASESession kMetricPASESessionBLE).
    + apply (bool_decide_unpack _). vm_compute. exact I.
    + apply (bool_decide_unpack _). vm_compute. exact I.
    + discriminate.
    + split; [reflexivity | right; reflexivity].
  - apply not_true_is_false. intros H.
    apply (key_value_prefixes kMetricCASESession kMetricCASESessionEstState) in H.
    + destruct H as [E _]. discriminate E.
    + apply (bool_decide_unpack _). vm_compute. exact I.
    + apply (bool_decide_unpack _). vm_compute. exact I.
    + discriminate.
Defined.

(** X5. Every variable of the header is declared after the typedef of its
    type: on the line of each constant, the typedefs of the lines before
    it already resolve the declared type, and to what the whole header
    resolves it to, [const char *]. *)
Theorem type_declared_before_use (i : nat) (cx : bool) (t : ctype)
    (name : string) (init : option expr) :
  metric_keys_h !! i = Some (LDecl (DVar cx t name init)) →
  resolve (typedefs_before i) t = TPtr (TConst TChar)
  ∧ resolve (typedefs_before i) t = resolve typedefs t.
Proof.
  do 44 (destruct i as [|i];
         [intros H; vm_compute in H; try discriminate H;
          injection H as <- <- <- <-; split; reflexivity|]).
  intros H. vm_compute in H. discriminate H.
Qed.

Lemma type_declared_before_use_witness :
  resolve (typedefs_before 31) (TName "MetricKey") = TPtr (TConst TChar)
  ∧ resolve (typedefs_before 26) (TName "MetricKey") = TName "MetricKey".
Proof.
  split; [|reflexivity].
  apply (type_declared_before_use 31 true (TName "MetricKey")
           "kMetricDiscoveryOverBLE" (Some (EStr "disc-over-ble"))).
  reflexivity.
Defined.

End KeyTableFacts.
